(** * Sierpinski triangle vertex generation (src/main.cpp)

    A shallow embedding of the vertex generator of main.cpp: [midpoint],
    [addPosAndColor], [addSierpinskiPts] and [initSierpinski], with the
    C++ scalar types written out.

    - [int] is a 32-bit two's-complement integer, held as a [Z] in
      [INT_MIN .. INT_MAX]; [depth + 1] wraps around.
    - [float] and [double] are the IEEE-754 binary32 and binary64 formats,
      held as [spec_float] and computed with the operations of the
      Standard Library's [SpecFloat] at precision 24 / 53 (round to nearest,
      ties to even).
    - [std::vector<float>] is a [list] of floats, [push_back] appends at
      the end.
    - The recursion of [addSierpinskiPts] is bounded by a fuel argument that
      counts nested activations; [None] means the fuel ran out. *)

From Stdlib Require Import ZArith List Lia Bool SpecFloat.
Import ListNotations.
Local Open Scope Z_scope.

(** ** The C++ [int] *)

Module Int.

Definition INT_MIN : Z := -2147483648.
Definition INT_MAX : Z := 2147483647.

Definition in_range (z : Z) : Prop := INT_MIN <= z <= INT_MAX.

(** Reduction of a mathematical integer to the 32-bit signed range. *)
Definition wrap (z : Z) : Z := (z + 2147483648) mod 4294967296 - 2147483648.

(** [a + b] on [int].  Signed overflow has no defined result in C++; the
    model takes the two's-complement result the hardware produces. *)
Definition add (a b : Z) : Z := wrap (a + b).

End Int.

(** ** The C++ [float] and [double] *)

(** binary32 *)
Module F32.

Definition prec : Z := 24.
Definition emax : Z := 128.

Definition valid (x : spec_float) : bool := valid_binary prec emax x.

Definition add (x y : spec_float) : spec_float := SFadd prec emax x y.
Definition div (x y : spec_float) : spec_float := SFdiv prec emax x y.

(** Conversion of a [double] to [float]: the value is rounded to 24 bits. *)
Definition of_double (d : spec_float) : spec_float :=
  match d with
  | S754_finite s m e => binary_round prec emax s m e
  | _ => d
  end.

(** The literals of main.cpp. *)
Definition zero : spec_float := S754_zero false.                     (* 0.0f *)
Definition half : spec_float := S754_finite false 8388608 (-24).     (* 0.5f *)
Definition neg_half : spec_float := S754_finite true 8388608 (-24).  (* -0.5f *)
Definition quarter : spec_float := S754_finite false 8388608 (-25).  (* 0.25f *)
Definition three_quarters : spec_float := S754_finite false 12582912 (-24). (* 0.75f *)
Definition two : spec_float := S754_finite false 8388608 (-22).      (* 2.0f *)

End F32.

(** binary64 *)
Module F64.

Definition prec : Z := 53.
Definition emax : Z := 1024.

Definition valid (x : spec_float) : bool := valid_binary prec emax x.

Definition mul (x y : spec_float) : spec_float := SFmul prec emax x y.
Definition div (x y : spec_float) : spec_float := SFdiv prec emax x y.

(** Conversion of an [int] to [double]; every [int] is representable. *)
Definition of_int (z : Z) : spec_float := binary_normalize prec emax z 0 false.

(** Conversion of a [float] to [double]; every [float] is representable,
    the mantissa is only re-aligned to 53 bits. *)
Definition of_float (f : spec_float) : spec_float :=
  match f with
  | S754_finite s m e => binary_round prec emax s m e
  | _ => f
  end.

Definition one : spec_float := S754_finite false 4503599627370496 (-52). (* 1.0 *)
Definition two : spec_float := S754_finite false 4503599627370496 (-51). (* 2.0 *)

End F64.

Definition float : Type := spec_float.

(** Reading a float as a number: [scaled_value k x = Some v] when [x] is a
    zero or a finite float whose value times [2^k] is the integer [v]. *)
Definition scaled_value (k : Z) (x : spec_float) : option Z :=
  match x with
  | S754_zero _ => Some 0
  | S754_finite s m e =>
      if 0 <=? e + k
      then Some (cond_Zopp s (Z.pos m * 2 ^ (e + k)))
      else if Z.pos m mod 2 ^ (- (e + k)) =? 0
           then Some (cond_Zopp s (Z.pos m / 2 ^ (- (e + k))))
           else None
  | _ => None
  end.

(** ** [std::vector<float>] *)

Definition push_back (points : list float) (v : float) : list float :=
  points ++ [v].

(** ** An option monad for the fuel-bounded recursion *)

Definition bind {A B : Type} (m : option A) (k : A -> option B) : option B :=
  match m with
  | Some a => k a
  | None => None
  end.

Notation "x <- m ;; k" := (bind m (fun x => k))
  (at level 61, m at next level, right associativity).

(** ** Points *)

(** Modelled from the spec: [point_t] is declared in mytypes.h, which is not
    part of the sources.  The spec's Point is a triple of coordinates
    (x, y, z); main.cpp initialises them with [float] literals and pushes
    them into a [std::vector<float>], so the fields are taken as [float]. *)
Record point_t : Type := mkPoint { x : float; y : float; z : float }.

(** [midpoint]: the sum of two [float]s is a [float]; it is converted to
    [double] for the division by the [double] literal [2.0], and the quotient
    is converted back on assignment to the [float] field. *)
Definition half_sum (u v : float) : float :=
  F32.of_double (F64.div (F64.of_float (F32.add u v)) F64.two).

Definition midpoint (a b : point_t) : point_t :=
  {| x := half_sum (x a) (x b);
     y := half_sum (y a) (y b);
     z := half_sum (z a) (z b) |}.

(** ** The generator, for a given value of the macro MAX_SIERPINSKI_DEPTH *)

Section Generator.

(** The macro is a compile-time constant of main.cpp (8 there, with the
    comment "change this to allow for more recursive depth"); it is a
    parameter here, so that the generator can be studied at any bound. *)
Variable MAX_DEPTH : Z.

(** The green channel, [depth * 1.0/MAX_SIERPINSKI_DEPTH]: the product and
    the quotient are computed in [double], and [push_back] converts the
    result to [float].  A zero divisor gives the IEEE quotient (NaN for
    0.0/0.0). *)
Definition green (depth : Z) : float :=
  F32.of_double
    (F64.div (F64.mul (F64.of_int depth) F64.one) (F64.of_int MAX_DEPTH)).

Definition addPosAndColor (p : point_t) (depth : Z) (points : list float)
  : list float :=
  let points := push_back points (x p) in
  let points := push_back points (y p) in
  let points := push_back points (z p) in
  let points := push_back points F32.quarter in
  let points := push_back points (green depth) in
  push_back points F32.three_quarters.

(** The six floats [addPosAndColor] appends for a point at a depth. *)
Definition vertex (p : point_t) (depth : Z) : list float :=
  [x p; y p; z p; F32.quarter; green depth; F32.three_quarters].

Fixpoint addSierpinskiPts (fuel : nat) (a b c : point_t) (depth : Z)
  (points : list float) : option (list float) :=
  match fuel with
  | O => None
  | S fuel' =>
      if depth <=? MAX_DEPTH then
        let points := addPosAndColor a depth points in
        let points := addPosAndColor b depth points in
        let points := addPosAndColor c depth points in
        let ab := midpoint a b in
        let ac := midpoint a c in
        let bc := midpoint b c in
        points <- addSierpinskiPts fuel' a ab ac (Int.add depth 1) points ;;
        points <- addSierpinskiPts fuel' b ab bc (Int.add depth 1) points ;;
        addSierpinskiPts fuel' c ac bc (Int.add depth 1) points
      else Some points
  end.

End Generator.

(** The value of the macro in main.cpp. *)
Definition MAX_SIERPINSKI_DEPTH : Z := 8.

(** The corner points hard-coded in [initSierpinski]. *)
Definition corner_a : point_t := mkPoint F32.neg_half F32.neg_half F32.zero.
Definition corner_b : point_t := mkPoint F32.zero F32.half F32.zero.
Definition corner_c : point_t := mkPoint F32.half F32.neg_half F32.zero.

Definition initSierpinski (fuel : nat) (points : list float)
  : option (list float) :=
  addSierpinskiPts MAX_SIERPINSKI_DEPTH fuel corner_a corner_b corner_c 0 points.

(** ** The emitted triangles

    The triangles [addSierpinskiPts] walks through, in the order of the
    walk, each with the depth of the call that emits it.  [levels] is the
    number of recursion levels that pass the guard. *)

Record triangle : Type :=
  mkTri { tri_a : point_t; tri_b : point_t; tri_c : point_t; tri_depth : Z }.

Fixpoint subdivision (levels : nat) (a b c : point_t) (depth : Z)
  : list triangle :=
  match levels with
  | O => []
  | S n =>
      let ab := midpoint a b in
      let ac := midpoint a c in
      let bc := midpoint b c in
      mkTri a b c depth
        :: subdivision n a ab ac (depth + 1)
        ++ subdivision n b ab bc (depth + 1)
        ++ subdivision n c ac bc (depth + 1)
  end.

(** Number of levels that pass the guard [depth <= MAX_DEPTH]. *)
Definition levels (MAX_DEPTH depth : Z) : nat := Z.to_nat (MAX_DEPTH + 1 - depth).

(** The vertices of a triangle, each paired with the triangle's depth. *)
Definition corners (t : triangle) : list (point_t * Z) :=
  [(tri_a t, tri_depth t); (tri_b t, tri_depth t); (tri_c t, tri_depth t)].

(** The floats of one triangle: three vertex records. *)
Definition face (MAX_DEPTH : Z) (t : triangle) : list float :=
  vertex MAX_DEPTH (tri_a t) (tri_depth t)
  ++ vertex MAX_DEPTH (tri_b t) (tri_depth t)
  ++ vertex MAX_DEPTH (tri_c t) (tri_depth t).

(** The triangles emitted by a call at depth 0. *)
Definition emitted_triangles (MAX_DEPTH : Z) (a b c : point_t) : list triangle :=
  subdivision (levels MAX_DEPTH 0) a b c 0.

(** Shallower triangles come before deeper ones, for every pair. *)
Definition shallower_first (ts : list triangle) : Prop :=
  forall i j ti tj,
    nth_error ts i = Some ti -> nth_error ts j = Some tj ->
    tri_depth ti < tri_depth tj -> (i < j)%nat.

(** ** Reading [midpoint] against the arithmetic mean *)

(** The componentwise mean as the spec words it, [(u + v) / 2], evaluated in
    IEEE-754 [float] arithmetic: one rounded sum and one rounded quotient.
    [midpoint] is compared with it below. *)
Definition arithmetic_mean (u v : float) : float :=
  F32.div (F32.add u v) F32.two.

(** A point whose coordinates are values of the binary32 format. *)
Definition valid_point (p : point_t) : Prop :=
  F32.valid (x p) = true /\ F32.valid (y p) = true /\ F32.valid (z p) = true.

(** A shift record with no bits shifted out yet. *)
Definition exact_record (m : Z) : shr_record := Build_shr_record m false false.

(** * Properties *)

(** ** Machine integers *)

Lemma wrap_in_range (n : Z) : Int.in_range (Int.wrap n).
Proof.
  unfold Int.in_range, Int.wrap, Int.INT_MIN, Int.INT_MAX.
  pose proof (Z.mod_pos_bound (n + 2147483648) 4294967296 eq_refl). lia.
Qed.

Lemma wrap_small (n : Z) : Int.in_range n -> Int.wrap n = n.
Proof.
  unfold Int.in_range, Int.wrap, Int.INT_MIN, Int.INT_MAX. intros H.
  rewrite Z.mod_small; lia.
Qed.

Lemma add_one_exact (d : Z) :
  Int.INT_MIN <= d -> d < Int.INT_MAX -> Int.add d 1 = d + 1.
Proof.
  intros H1 H2. unfold Int.add. apply wrap_small.
  unfold Int.in_range, Int.INT_MIN, Int.INT_MAX in *. lia.
Qed.

(** ** Floating point

    [SpecFloat] gives the operations; the facts about them needed here are
    proved from their definitions: rounding a mantissa that is already
    aligned, halving, and the validity of a rounded result. *)

Lemma iter_pos_iter {A : Type} (f : A -> A) (p : positive) :
  forall a, iter_pos f p a = Pos.iter f a p.
Proof.
  induction p as [p IH|p IH|]; intros a; cbn [iter_pos Pos.iter].
  - rewrite !IH, !Pos.iter_swap. reflexivity.
  - rewrite !IH. reflexivity.
  - reflexivity.
Qed.

Lemma digits2_pos_shift (m p : positive) :
  digits2_pos (Pos.iter xO m p) = (digits2_pos m + p)%positive.
Proof.
  induction p as [|p IH] using Pos.peano_ind.
  - cbn. now rewrite Pos.add_1_r.
  - rewrite Pos.iter_succ. cbn [digits2_pos]. rewrite IH. lia.
Qed.


Lemma shr_1_iter_shift (m p : positive) :
  Pos.iter shr_1 (exact_record (Z.pos (Pos.iter xO m p))) p
  = exact_record (Z.pos m).
Proof.
  induction p as [|p IH] using Pos.peano_ind.
  - reflexivity.
  - rewrite Pos.iter_succ_r, Pos.iter_succ. cbn [exact_record shr_1 orb].
    apply IH.
Qed.

Section Format.
Variables prec emax : Z.

Lemma round_canonical (s : bool) (m : positive) (e : Z) :
  canonical_mantissa prec emax m e = true ->
  e <= emax - prec ->
  binary_round_aux prec emax s (Z.pos m) e loc_Exact = S754_finite s m e.
Proof.
  intros C B. unfold canonical_mantissa in C. apply Z.eqb_eq in C.
  unfold binary_round_aux, shr_fexp. cbn [Zdigits2].
  rewrite C, Z.sub_diag. cbn [shr shr_record_of_loc shr_m loc_of_shr_record round_nearest_even Zdigits2].
  rewrite C, Z.sub_diag. cbn [shr shr_record_of_loc shr_m].
  rewrite (proj2 (Z.leb_le _ _) B). reflexivity.
Qed.

Lemma round_shifted (s : bool) (m p : positive) (e : Z) :
  canonical_mantissa prec emax m e = true ->
  e <= emax - prec ->
  binary_round_aux prec emax s (Z.pos (Pos.iter xO m p)) (e - Z.pos p) loc_Exact
  = S754_finite s m e.
Proof.
  intros C B. pose proof C as C'. unfold canonical_mantissa in C'. apply Z.eqb_eq in C'.
  unfold binary_round_aux, shr_fexp at 1. cbn [Zdigits2].
  rewrite digits2_pos_shift, Pos2Z.inj_add.
  replace (Z.pos (digits2_pos m) + Z.pos p + (e - Z.pos p)) with (Z.pos (digits2_pos m) + e) by lia.
  rewrite C'. replace (e - (e - Z.pos p)) with (Z.pos p) by lia.
  cbn [shr shr_record_of_loc]. rewrite iter_pos_iter.
  fold (exact_record (Z.pos (Pos.iter xO m p))). rewrite shr_1_iter_shift.
  cbn [exact_record shr_m loc_of_shr_record round_nearest_even].
  replace (e - Z.pos p + Z.pos p) with e by lia.
  unfold shr_fexp. cbn [Zdigits2]. rewrite C', Z.sub_diag.
  cbn [shr shr_record_of_loc shr_m].
  rewrite (proj2 (Z.leb_le _ _) B). reflexivity.
Qed.

End Format.

Lemma fexp32 (x : Z) : fexp F32.prec F32.emax x = Z.max (x - 24) (-149).
Proof. reflexivity. Qed.

Lemma fexp64 (x : Z) : fexp F64.prec F64.emax x = Z.max (x - 53) (-1074).
Proof. reflexivity. Qed.

Lemma canonical32 (m : positive) (e : Z) :
  canonical_mantissa F32.prec F32.emax m e = true
  <-> Z.max (Z.pos (digits2_pos m) + e - 24) (-149) = e.
Proof. unfold canonical_mantissa. rewrite fexp32. apply Z.eqb_eq. Qed.

Lemma canonical64 (m : positive) (e : Z) :
  canonical_mantissa F64.prec F64.emax m e = true
  <-> Z.max (Z.pos (digits2_pos m) + e - 53) (-1074) = e.
Proof. unfold canonical_mantissa. rewrite fexp64. apply Z.eqb_eq. Qed.

Lemma valid32_finite (s : bool) (m : positive) (e : Z) :
  F32.valid (S754_finite s m e) = true
  <-> Z.max (Z.pos (digits2_pos m) + e - 24) (-149) = e /\ e <= 104.
Proof.
  unfold F32.valid, valid_binary, bounded. rewrite andb_true_iff, canonical32.
  change (F32.emax - F32.prec) with 104. rewrite Z.leb_le. reflexivity.
Qed.

(** float -> double is exact: the mantissa is shifted to 53 bits *)
Lemma of_float_finite (s : bool) (m : positive) (e : Z) :
  F32.valid (S754_finite s m e) = true ->
  exists p,
    Z.pos p = 53 - Z.pos (digits2_pos m)
    /\ F64.of_float (S754_finite s m e)
       = S754_finite s (Pos.iter xO m p) (e - Z.pos p).
Proof.
  intros V. apply valid32_finite in V as [C B].
  assert (D : 0 < 53 - Z.pos (digits2_pos m)) by lia.
  destruct (53 - Z.pos (digits2_pos m)) as [|p|p] eqn:E; try lia.
  exists p. split; [reflexivity|].
  unfold F64.of_float, binary_round, shl_align. rewrite fexp64.
  replace (Z.max (Z.pos (digits2_pos m) + e - 53) (-1074) - e) with (Z.neg p) by lia.
  replace (Z.max (Z.pos (digits2_pos m) + e - 53) (-1074)) with (e - Z.pos p) by lia.
  apply round_canonical.
  - apply canonical64. rewrite digits2_pos_shift, Pos2Z.inj_add. lia.
  - change (F64.emax - F64.prec) with 971. lia.
Qed.

Lemma div_eucl_exact (a b q : Z) :
  0 < b -> a = b * q -> Z.div_eucl a b = (q, 0).
Proof.
  intros Hb ->. pose proof (Z_div_mod (b * q) b ltac:(lia)) as H.
  destruct (Z.div_eucl (b * q) b) as [q' r']. destruct H as [H1 H2].
  assert (q' = q) by nia. subst q'. f_equal. lia.
Qed.

Lemma div_eucl_rem (a b q r : Z) :
  0 <= r < b -> a = b * q + r -> Z.div_eucl a b = (q, r).
Proof.
  intros Hb ->. pose proof (Z_div_mod (b * q + r) b ltac:(lia)) as H.
  destruct (Z.div_eucl (b * q + r) b) as [q' r']. destruct H as [H1 H2].
  assert (q' = q) by nia. subst q'. f_equal. lia.
Qed.

(** halving a normal double is exact *)
Lemma div64_two (s : bool) (m : positive) (e : Z) :
  Z.pos (digits2_pos m) = 53 -> -1000 <= e <= 971 ->
  F64.div (S754_finite s m e) F64.two = S754_finite s m (e - 1).
Proof.
  intros D B. unfold F64.div, F64.two, SFdiv, SFdiv_core_binary.
  cbn [Zdigits2]. rewrite D.
  change (Z.pos (digits2_pos 4503599627370496)) with 53.
  rewrite fexp64.
  replace (Z.min (Z.max (53 + e - (53 + -51) - 53) (-1074)) (e - -51))
    with (e - 2) by lia.
  replace (e - -51 - (e - 2)) with 53 by lia.
  rewrite Z.shiftl_mul_pow2 by lia.
  rewrite (div_eucl_exact _ _ (Z.pos m~0)) by lia.
  unfold new_location. cbn [Z.even new_location_even Z.eqb].
  rewrite xorb_false_r.
  replace (e - 2) with (e - 1 - Z.pos 1) by lia.
  change (m~0)%positive with (Pos.iter xO m 1).
  apply round_shifted.
  - apply canonical64. lia.
  - change (F64.emax - F64.prec) with 971. lia.
Qed.

(** halving a normal float is exact as long as the result is normal or
    has the least exponent *)
Lemma div32_two_normal (s : bool) (m : positive) (e : Z) :
  Z.pos (digits2_pos m) = 24 -> -148 <= e <= 104 ->
  F32.div (S754_finite s m e) F32.two = S754_finite s m (e - 1).
Proof.
  intros D B. unfold F32.div, F32.two, SFdiv, SFdiv_core_binary.
  cbn [Zdigits2]. rewrite D.
  change (Z.pos (digits2_pos 8388608)) with 24.
  rewrite fexp32, xorb_false_r.
  destruct (Z.eq_dec e (-148)) as [->|N].
  - change (Z.min (Z.max (24 + -148 - (24 + -22) - 24) (-149)) (-148 - -22))
      with (-149).
    change (-148 - -22 - -149) with 23.
    rewrite Z.shiftl_mul_pow2 by lia.
    rewrite (div_eucl_exact _ _ (Z.pos m)) by lia.
    unfold new_location. cbn [Z.even new_location_even Z.eqb].
    apply round_canonical.
    + apply canonical32. lia.
    + change (F32.emax - F32.prec) with 104. lia.
  - replace (Z.min (Z.max (24 + e - (24 + -22) - 24) (-149)) (e - -22))
      with (e - 2) by lia.
    replace (e - -22 - (e - 2)) with 24 by lia.
    rewrite Z.shiftl_mul_pow2 by lia.
    rewrite (div_eucl_exact _ _ (Z.pos m~0)) by lia.
    unfold new_location. cbn [Z.even new_location_even Z.eqb].
    replace (e - 2) with (e - 1 - Z.pos 1) by lia.
    change (m~0)%positive with (Pos.iter xO m 1).
    apply round_shifted.
    + apply canonical32. lia.
    + change (F32.emax - F32.prec) with 104. lia.
Qed.

(** double -> float of a 53-bit mantissa: no alignment is needed before
    rounding *)
Lemma of_double_aux (s : bool) (m : positive) (e : Z) :
  Z.pos (digits2_pos m) = 53 ->
  F32.of_double (S754_finite s m e)
  = binary_round_aux F32.prec F32.emax s (Z.pos m) e loc_Exact.
Proof.
  intros D. unfold F32.of_double, binary_round, shl_align.
  rewrite D, fexp32.
  destruct (Z.max (53 + e - 24) (-149) - e) as [|q|q] eqn:E; try reflexivity.
  lia.
Qed.

(** ** Halving at the least exponent: the last bit is rounded *)

Lemma narrow_subnormal_shr (m p : positive) :
  Z.pos p = 53 - Z.pos (digits2_pos m) -> Z.pos (digits2_pos m) <= 24 ->
  shr_fexp F32.prec F32.emax (Z.pos (Pos.iter xO m p)) (-149 - Z.pos p - 1)
    loc_Exact
  = (shr_1 (exact_record (Z.pos m)), -149).
Proof.
  intros P D. unfold shr_fexp. cbn [Zdigits2].
  rewrite digits2_pos_shift, Pos2Z.inj_add, fexp32.
  replace (Z.max (Z.pos (digits2_pos m) + Z.pos p + (-149 - Z.pos p - 1) - 24)
             (-149) - (-149 - Z.pos p - 1))
    with (Z.pos (Pos.succ p)) by lia.
  cbn [shr shr_record_of_loc].
  rewrite iter_pos_iter, Pos.iter_succ.
  fold (exact_record (Z.pos (Pos.iter xO m p))). rewrite shr_1_iter_shift.
  f_equal. lia.
Qed.

Lemma div32_subnormal_core (m : positive) :
  Z.pos (digits2_pos m) <= 24 ->
  exists q loc,
    SFdiv_core_binary F32.prec F32.emax (Z.pos m) (-149) (Z.pos 8388608) (-22)
    = (q, -149, loc)
    /\ shr_fexp F32.prec F32.emax q (-149) loc
       = (shr_1 (exact_record (Z.pos m)), -149).
Proof.
  intros D. unfold SFdiv_core_binary. cbn [Zdigits2].
  change (Z.pos (digits2_pos 8388608)) with 24. rewrite fexp32.
  replace (Z.min (Z.max (Z.pos (digits2_pos m) + -149 - (24 + -22) - 24) (-149))
             (-149 - -22)) with (-149) by lia.
  change (-149 - -22 - -149) with 22.
  rewrite Z.shiftl_mul_pow2 by lia.
  unfold new_location. cbn [Z.even new_location_even].
  destruct m as [m'|m'|].
  - rewrite (div_eucl_rem _ _ (Z.pos m') 4194304) by lia.
    do 2 eexists. split; [reflexivity|].
    unfold shr_fexp. cbn [Zdigits2 Z.eqb Z.mul Z.compare Pos.mul Pos.compare Pos.compare_cont].
    rewrite fexp32. cbn [digits2_pos] in D.
    replace (Z.max (Z.pos (digits2_pos m') + -149 - 24) (-149) - -149) with 0 by lia.
    reflexivity.
  - rewrite (div_eucl_exact _ _ (Z.pos m')) by lia.
    do 2 eexists. split; [reflexivity|].
    unfold shr_fexp. cbn [Zdigits2 Z.eqb]. rewrite fexp32. cbn [digits2_pos] in D.
    replace (Z.max (Z.pos (digits2_pos m') + -149 - 24) (-149) - -149) with 0 by lia.
    reflexivity.
  - do 2 eexists. split; reflexivity.
Qed.

(** ** The division by the [double] 2.0 agrees with the [float] division *)

Lemma halve_via_double (w : spec_float) :
  F32.valid w = true ->
  F32.of_double (F64.div (F64.of_float w) F64.two) = F32.div w F32.two.
Proof.
  intros V.
  destruct w as [s|s| |s m e];
    [destruct s; reflexivity | destruct s; reflexivity | reflexivity | ].
  destruct (of_float_finite s m e V) as (p & P & ->).
  apply valid32_finite in V as [C B].
  rewrite div64_two
    by (rewrite ?digits2_pos_shift, ?Pos2Z.inj_add; lia).
  rewrite of_double_aux by (rewrite digits2_pos_shift, Pos2Z.inj_add; lia).
  destruct (Z.eq_dec e (-149)) as [->|N].
  - unfold F32.div, F32.two, SFdiv.
    destruct (div32_subnormal_core m ltac:(lia)) as (q & loc & -> & S).
    unfold binary_round_aux. rewrite S, narrow_subnormal_shr by lia.
    rewrite xorb_false_r. reflexivity.
  - rewrite div32_two_normal by lia.
    replace (e - Z.pos p - 1) with (e - 1 - Z.pos p) by lia.
    replace p with 29%positive by lia.
    apply round_shifted.
    + apply canonical32. lia.
    + change (F32.emax - F32.prec) with 104. lia.
Qed.

Lemma digits2_pos_bounds (m : positive) :
  2 ^ (Z.pos (digits2_pos m) - 1) <= Z.pos m < 2 ^ Z.pos (digits2_pos m).
Proof.
  induction m as [m IH|m IH|]; cbn [digits2_pos]; [| |cbn; lia];
    rewrite Pos2Z.inj_succ;
    replace (Z.succ (Z.pos (digits2_pos m)) - 1)
      with (Z.succ (Z.pos (digits2_pos m) - 1)) by lia;
    rewrite !Z.pow_succ_r by lia; lia.
Qed.

Lemma digits2_pos_unique (m : positive) (n : Z) :
  2 ^ (n - 1) <= Z.pos m < 2 ^ n -> 1 <= n -> Z.pos (digits2_pos m) = n.
Proof.
  intros [L U] Hn. pose proof (digits2_pos_bounds m) as [L' U'].
  assert (n - 1 < Z.pos (digits2_pos m)).
  { apply (Z.pow_lt_mono_r_iff 2); lia. }
  assert (Z.pos (digits2_pos m) - 1 < n).
  { apply (Z.pow_lt_mono_r_iff 2); lia. }
  lia.
Qed.

Lemma digits2_pos_le (m : positive) (n : Z) :
  Z.pos m <= 2 ^ n -> 0 <= n -> Z.pos (digits2_pos m) <= n + 1.
Proof.
  intros U Hn. pose proof (digits2_pos_bounds m) as [L' U'].
  assert (Z.pos (digits2_pos m) - 1 < n + 1).
  { apply (Z.pow_lt_mono_r_iff 2); try lia.
    rewrite Z.pow_add_r by lia. change (2 ^ 1) with 2. lia. }
  lia.
Qed.

Lemma shr_1_m (r : shr_record) :
  0 <= shr_m r -> shr_m (shr_1 r) = shr_m r / 2 /\ 0 <= shr_m (shr_1 r).
Proof.
  destruct r as [m rb sb]. cbn [shr_m]. intros H.
  rewrite <- Z.div2_div.
  destruct m as [|[p|p|]|p]; cbn; try lia. 
Qed.

Lemma shr_iter_m (k : positive) (r : shr_record) :
  0 <= shr_m r ->
  shr_m (Pos.iter shr_1 r k) = shr_m r / 2 ^ Z.pos k
  /\ 0 <= shr_m (Pos.iter shr_1 r k).
Proof.
  intros H. induction k as [|k IH] using Pos.peano_ind.
  - cbn [Pos.iter]. change (2 ^ 1) with 2. now apply shr_1_m.
  - rewrite Pos.iter_succ. destruct IH as [IH1 IH2].
    destruct (shr_1_m _ IH2) as [E1 E2]. split; [|exact E2].
    rewrite E1, IH1, Z.div_div by lia.
    rewrite Pos2Z.inj_succ, Z.pow_succ_r by lia. f_equal. lia.
Qed.

Lemma round_nearest_even_cases (m : Z) (l : location) :
  round_nearest_even m l = m \/ round_nearest_even m l = m + 1.
Proof.
  destruct l as [|[]]; cbn; try destruct (Z.even m); auto.
Qed.

(** The last step of [binary_round_aux]: after rounding, a mantissa of at
    most 2^24 is re-aligned and yields a valid float. *)
Lemma round_finish_valid32 (s : bool) (m e : Z) :
  -149 <= e -> 0 <= m <= 16777216 -> (m < 8388608 -> e = -149) ->
  F32.valid
    (let '(mrs, e') := shr_fexp F32.prec F32.emax m e loc_Exact in
     match shr_m mrs with
     | 0 => S754_zero s
     | Z.pos p =>
         if e' <=? F32.emax - F32.prec then S754_finite s p e'
         else S754_infinity s
     | Z.neg _ => S754_nan
     end) = true.
Proof.
  intros He Hm Hsub. unfold shr_fexp. rewrite fexp32.
  change (F32.emax - F32.prec) with 104.
  destruct m as [|p|p]; [| |lia].
  - cbn [Zdigits2 shr_record_of_loc].
    destruct (Z.max (0 + e - 24) (-149) - e) as [|q|q] eqn:N; try lia; reflexivity.
  - cbn [Zdigits2 shr_record_of_loc].
    destruct (Z.eq_dec (Z.pos p) 16777216) as [P|P].
    + injection P as ->.
      change (Z.pos (digits2_pos 16777216)) with 25.
      replace (Z.max (25 + e - 24) (-149) - e) with 1 by lia.
      cbn [shr iter_pos shr_1 shr_m orb].
      destruct (e + 1 <=? 104) eqn:B; [|reflexivity].
      apply Z.leb_le in B. apply valid32_finite.
      change (Z.pos (digits2_pos 8388608)) with 24. lia.
    + assert (D : Z.max (Z.pos (digits2_pos p) + e - 24) (-149) = e).
      { destruct (Z_lt_le_dec (Z.pos p) 8388608) as [S|S].
        - pose proof (digits2_pos_le p 23 ltac:(change (2 ^ 23) with 8388608; lia) ltac:(lia)).
          specialize (Hsub S). lia.
        - rewrite (digits2_pos_unique p 24); [lia| |lia].
          change (2 ^ (24 - 1)) with 8388608. change (2 ^ 24) with 16777216. lia. }
      rewrite D, Z.sub_diag. cbn [shr shr_m].
      destruct (e <=? 104) eqn:B; [|reflexivity].
      apply Z.leb_le in B. apply valid32_finite. lia.
Qed.

(** Rounding an aligned mantissa gives a valid [float]. *)
Lemma round_aux_valid32 (s : bool) (m : positive) (e : Z) :
  e <= fexp F32.prec F32.emax (Z.pos (digits2_pos m) + e) ->
  F32.valid (binary_round_aux F32.prec F32.emax s (Z.pos m) e loc_Exact) = true.
Proof.
  rewrite fexp32. intros A.
  pose proof (digits2_pos_bounds m) as [L U].
  unfold binary_round_aux. unfold shr_fexp at 1. cbn [Zdigits2]. rewrite fexp32.
  destruct (Z.max (Z.pos (digits2_pos m) + e - 24) (-149) - e) as [|k|k] eqn:N;
    [| |lia].
  - cbn [shr shr_record_of_loc shr_m loc_of_shr_record round_nearest_even].
    destruct (Z_lt_le_dec 24 (Z.pos (digits2_pos m))) as [G|G]; [lia|].
    apply round_finish_valid32; [lia| |].
    + pose proof (Z.pow_le_mono_r 2 (Z.pos (digits2_pos m)) 24 ltac:(lia) G).
      change (2 ^ 24) with 16777216 in *. lia.
    + intros S. 
      destruct (Z.eq_dec e (-149)) as [|Ne]; [assumption|exfalso].
      assert (Z.pos (digits2_pos m) = 24) by lia.
      rewrite H in L. change (2 ^ (24 - 1)) with 8388608 in L. lia.
  - cbn [shr shr_record_of_loc]. rewrite iter_pos_iter.
    destruct (shr_iter_m k (Build_shr_record (Z.pos m) false false))
      as [E1 E2]; [cbn; lia|].
    change (shr_m (Build_shr_record (Z.pos m) false false)) with (Z.pos m) in E1.
    set (R := Pos.iter shr_1 (Build_shr_record (Z.pos m) false false) k) in *.
    assert (K : 0 < 2 ^ Z.pos k) by (apply Z.pow_pos_nonneg; lia).
    assert (B : 8388608 <= shr_m R < 16777216
                \/ (shr_m R < 8388608 /\ e + Z.pos k = -149)).
    { rewrite E1.
      destruct (Z_le_gt_dec (-149) (Z.pos (digits2_pos m) + e - 24)) as [C|C].
      - left. assert (Z.pos (digits2_pos m) = Z.pos k + 24) as D by lia.
        rewrite D in L, U.
        replace (Z.pos k + 24 - 1) with (Z.pos k + 23) in L by lia.
        rewrite Z.pow_add_r in L, U by lia.
        change (2 ^ 23) with 8388608 in L. change (2 ^ 24) with 16777216 in U.
        split.
        + apply Z.div_le_lower_bound; lia.
        + apply Z.div_lt_upper_bound; lia.
      - right. split; [|lia].
        apply Z.div_lt_upper_bound; [lia|].
        assert (Z.pos (digits2_pos m) <= Z.pos k + 23) as D by lia.
        pose proof (Z.pow_le_mono_r 2 _ _ ltac:(lia) D) as P.
        rewrite Z.pow_add_r in P by lia.
        change (2 ^ 23) with 8388608 in P. lia. }
    destruct (round_nearest_even_cases (shr_m R) (loc_of_shr_record R)) as [Q|Q];
      rewrite Q; clear Q; apply round_finish_valid32; lia.
Qed.

Lemma round_valid32 (s : bool) (m : positive) (e : Z) :
  F32.valid (binary_round F32.prec F32.emax s m e) = true.
Proof.
  unfold binary_round, shl_align.
  destruct (fexp F32.prec F32.emax (Z.pos (digits2_pos m) + e) - e)
    as [|k|k] eqn:N; apply round_aux_valid32; try lia.
  rewrite digits2_pos_shift, Pos2Z.inj_add.
  replace (Z.pos (digits2_pos m) + Z.pos k
           + fexp F32.prec F32.emax (Z.pos (digits2_pos m) + e))
    with (Z.pos (digits2_pos m) + e) by lia.
  lia.
Qed.

Lemma normalize_valid32 (m e : Z) (szero : bool) :
  F32.valid (binary_normalize F32.prec F32.emax m e szero) = true.
Proof.
  destruct m; [reflexivity | apply round_valid32 | apply round_valid32].
Qed.

(** The sum of two [float]s is a [float]. *)
Lemma add_valid32 (u v : spec_float) :
  F32.valid u = true -> F32.valid v = true -> F32.valid (F32.add u v) = true.
Proof.
  intros Hu Hv.
  destruct u as [su|su| |su mu eu], v as [sv|sv| |sv mv ev];
    try reflexivity; try assumption;
    try (destruct su, sv; reflexivity).
  apply normalize_valid32.
Qed.

(** A [double] converted to [float] is a [float]. *)
Lemma of_double_valid (d : spec_float) : F32.valid (F32.of_double d) = true.
Proof.
  destruct d; [reflexivity | reflexivity | reflexivity | apply round_valid32].
Qed.

Lemma half_sum_valid (u v : float) : F32.valid (half_sum u v) = true.
Proof. apply of_double_valid. Qed.

Lemma half_sum_mean (u v : float) :
  F32.valid u = true -> F32.valid v = true ->
  half_sum u v = F32.div (F32.add u v) F32.two.
Proof.
  intros Hu Hv. unfold half_sum. apply halve_via_double.
  now apply add_valid32.
Qed.

(** ** The vector *)

Lemma addPosAndColor_app (M : Z) (p : point_t) (depth : Z) (points : list float) :
  addPosAndColor M p depth points = points ++ vertex M p depth.
Proof.
  unfold addPosAndColor, push_back, vertex.
  repeat rewrite <- app_assoc. reflexivity.
Qed.

Lemma face_length (M : Z) (t : triangle) : length (face M t) = 18%nat.
Proof. reflexivity. Qed.

Lemma faces_length (M : Z) (ts : list triangle) :
  length (flat_map (face M) ts) = (18 * length ts)%nat.
Proof.
  induction ts as [|t ts IH]; [reflexivity|].
  cbn [flat_map]. rewrite length_app, IH, face_length. cbn [length]. lia.
Qed.

Lemma face_corners (M : Z) (t : triangle) :
  face M t = flat_map (fun v => vertex M (fst v) (snd v)) (corners t).
Proof. unfold face, corners. cbn. reflexivity. Qed.

Lemma faces_corners (M : Z) (ts : list triangle) :
  flat_map (face M) ts
  = flat_map (fun v => vertex M (fst v) (snd v)) (flat_map corners ts).
Proof.
  induction ts as [|t ts IH]; [reflexivity|].
  cbn [flat_map]. rewrite flat_map_app, <- IH, <- face_corners. reflexivity.
Qed.

Lemma corners_length (ts : list triangle) :
  length (flat_map corners ts) = (3 * length ts)%nat.
Proof.
  induction ts as [|t ts IH]; [reflexivity|].
  cbn [flat_map]. rewrite length_app, IH. cbn [length corners]. lia.
Qed.

(** ** The recursion *)

Section Recursion.

Variable M : Z.

(** Any run that returns has only appended whole triangles. *)
Lemma addSierpinskiPts_appends (fuel : nat) :
  forall a b c depth points s,
    addSierpinskiPts M fuel a b c depth points = Some s ->
    exists ts, s = points ++ flat_map (face M) ts.
Proof.
  induction fuel as [|fuel IH]; intros a b c depth points s H; [discriminate|].
  cbn [addSierpinskiPts] in H.
  destruct (depth <=? M).
  - rewrite !addPosAndColor_app in H.
    destruct (addSierpinskiPts M fuel a _ _ _ _) as [s1|] eqn:E1; [|discriminate].
    cbn [bind] in H.
    destruct (addSierpinskiPts M fuel b _ _ _ _) as [s2|] eqn:E2; [|discriminate].
    cbn [bind] in H.
    apply IH in E1 as [t1 ->]. apply IH in E2 as [t2 ->]. apply IH in H as [t3 ->].
    exists (mkTri a b c depth :: t1 ++ t2 ++ t3).
    cbn [flat_map]. rewrite !flat_map_app. unfold face at 4. cbn [tri_a tri_b tri_c tri_depth].
    repeat rewrite <- app_assoc. reflexivity.
  - injection H as <-. exists []. cbn. now rewrite app_nil_r.
Qed.

(** With the bound at [INT_MAX] or above, the guard holds for every [int]:
    no amount of fuel lets the run return. *)
Lemma addSierpinskiPts_no_return (fuel : nat) :
  Int.INT_MAX <= M ->
  forall a b c depth points,
    Int.in_range depth ->
    addSierpinskiPts M fuel a b c depth points = None.
Proof.
  intros HM. induction fuel as [|fuel IH]; intros a b c depth points Hd; [reflexivity|].
  cbn [addSierpinskiPts].
  replace (depth <=? M) with true by (symmetry; apply Z.leb_le; unfold Int.in_range in Hd; lia).
  rewrite IH by apply wrap_in_range. reflexivity.
Qed.

(** Below [INT_MAX] the run is determined by the fuel: it returns exactly
    when the fuel exceeds the number of levels, and then it has appended the
    faces of the subdivision. *)
Lemma addSierpinskiPts_spec (fuel : nat) :
  M < Int.INT_MAX ->
  forall a b c depth points,
    Int.INT_MIN <= depth ->
    addSierpinskiPts M fuel a b c depth points
    = if (levels M depth <? fuel)%nat
      then Some (points ++ flat_map (face M) (subdivision (levels M depth) a b c depth))
      else None.
Proof.
  intros HM. induction fuel as [|fuel IH]; intros a b c depth points Hd.
  - reflexivity.
  - cbn [addSierpinskiPts].
    destruct (depth <=? M) eqn:G.
    + apply Z.leb_le in G.
      rewrite add_one_exact by lia.
      rewrite !addPosAndColor_app.
      assert (L : levels M depth = S (levels M (depth + 1))).
      { unfold levels. rewrite <- Z2Nat.inj_succ by lia. f_equal. lia. }
      rewrite L.
      change (S (levels M (depth + 1)) <? S fuel)%nat with (levels M (depth + 1) <? fuel)%nat.
      rewrite IH by lia.
      destruct (levels M (depth + 1) <? fuel)%nat eqn:F; [|reflexivity].
      cbn [bind]. rewrite IH by lia. rewrite F. cbn [bind].
      rewrite IH by lia. rewrite F.
      cbn [subdivision flat_map]. f_equal.
      rewrite !flat_map_app. unfold face at 1. cbn [tri_a tri_b tri_c tri_depth].
      repeat rewrite <- app_assoc. reflexivity.
    + apply Z.leb_gt in G.
      assert (L : levels M depth = O) by (unfold levels; lia).
      rewrite L. cbn. now rewrite app_nil_r.
Qed.

End Recursion.

(** The scenario of the spec: corner points of main.cpp, bound 1.  The
    floats are shown times 4: one triangle at depth 0 with green 0, then the
    three triangles at depth 1 with green 1. *)
Example scenario_bound_1 :
  option_map (map (scaled_value 2))
    (addSierpinskiPts 1 3 corner_a corner_b corner_c 0 [])
  = Some (map Some
      [-2; -2; 0; 1; 0; 3;   0;  2; 0; 1; 0; 3;   2; -2; 0; 1; 0; 3;
       -2; -2; 0; 1; 4; 3;  -1;  0; 0; 1; 4; 3;   0; -2; 0; 1; 4; 3;
        0;  2; 0; 1; 4; 3;  -1;  0; 0; 1; 4; 3;   1;  0; 0; 1; 4; 3;
        2; -2; 0; 1; 4; 3;   0; -2; 0; 1; 4; 3;   1;  0; 0; 1; 4; 3]).
Proof. vm_compute. reflexivity. Qed.

(** ** Counting *)

Lemma subdivision_length (n : nat) :
  forall a b c depth,
    2 * Z.of_nat (length (subdivision n a b c depth)) + 1 = 3 ^ Z.of_nat n.
Proof.
  induction n as [|n IH]; intros a b c depth; [reflexivity|].
  cbn [subdivision length]. rewrite !length_app.
  rewrite (Nat2Z.inj_succ n), Z.pow_succ_r by lia.
  pose proof (IH a (midpoint a b) (midpoint a c) (depth + 1)).
  pose proof (IH b (midpoint a b) (midpoint b c) (depth + 1)).
  pose proof (IH c (midpoint a c) (midpoint b c) (depth + 1)).
  lia.
Qed.

Lemma subdivision_faces_length (M : Z) (n : nat) (a b c : point_t) (depth : Z) :
  2 * Z.of_nat (length (flat_map (face M) (subdivision n a b c depth))) + 18
  = 18 * 3 ^ Z.of_nat n.
Proof.
  rewrite faces_length. pose proof (subdivision_length n a b c depth) as H.
  rewrite Nat2Z.inj_mul. generalize dependent (3 ^ Z.of_nat n). intros; lia.
Qed.

Lemma levels_from_zero (D : Z) : 0 <= D -> Z.of_nat (levels D 0) = D + 1.
Proof. intros H. unfold levels. lia. Qed.

(** A returned stream is the same whatever fuel produced it. *)
Lemma addSierpinskiPts_returns (M : Z) (fuel : nat) (a b c : point_t)
  (depth : Z) (points s : list float) :
  Int.in_range depth ->
  addSierpinskiPts M fuel a b c depth points = Some s ->
  M < Int.INT_MAX
  /\ s = points ++ flat_map (face M) (subdivision (levels M depth) a b c depth).
Proof.
  intros Hd H. destruct (Z_lt_le_dec M Int.INT_MAX) as [HM|HM].
  - split; [exact HM|]. rewrite addSierpinskiPts_spec in H by (try apply Hd; exact HM).
    destruct (levels M depth <? fuel)%nat; congruence.
  - rewrite addSierpinskiPts_no_return in H by assumption. discriminate.
Qed.

Lemma zero_in_range : Int.in_range 0.
Proof. unfold Int.in_range, Int.INT_MIN, Int.INT_MAX. lia. Qed.

(** ** Depths in the subdivision *)

Lemma subdivision_depth_bounds (n : nat) :
  forall a b c depth,
    Forall (fun t => depth <= tri_depth t < depth + Z.of_nat n)
      (subdivision n a b c depth).
Proof.
  induction n as [|n IH]; intros a b c depth; [constructor|].
  cbn [subdivision]. constructor; [cbn [tri_depth]; lia|].
  repeat (apply Forall_app; split);
    (eapply Forall_impl; [|apply IH]); cbn beta; intros t Ht; lia.
Qed.

Lemma emitted_depth_bounds (M : Z) (a b c : point_t) :
  Forall (fun t => 0 <= tri_depth t <= M) (emitted_triangles M a b c).
Proof.
  unfold emitted_triangles.
  eapply Forall_impl; [|apply subdivision_depth_bounds].
  cbn beta. intros t Ht. unfold levels in Ht. lia.
Qed.

Lemma subdivision_corners_depth (M : Z) (a b c : point_t) :
  Forall (fun v => 0 <= snd v <= M)
    (flat_map corners (emitted_triangles M a b c)).
Proof.
  pose proof (emitted_depth_bounds M a b c) as H.
  induction H as [|t ts Ht _ IH]; [constructor|].
  cbn [flat_map]. apply Forall_app. split; [|exact IH].
  unfold corners. repeat constructor; cbn [snd]; lia.
Qed.

(** ** Blocks of the subdivision

    The triangles a call emits form one contiguous block of the stream,
    headed by the call's own triangle. *)

Lemma nth_error_app_cases {A : Type} (l1 l2 : list A) (i : nat) (v : A) :
  nth_error (l1 ++ l2) i = Some v ->
  nth_error l1 i = Some v
  \/ (exists j, i = (length l1 + j)%nat /\ nth_error l2 j = Some v).
Proof.
  intros H. destruct (Nat.lt_ge_cases i (length l1)) as [L|L].
  - left. now rewrite nth_error_app1 in H.
  - right. rewrite nth_error_app2 in H by assumption.
    exists (i - length l1)%nat. split; [lia | assumption].
Qed.

Lemma subdivision_block (n : nat) :
  forall a b c depth i t,
    nth_error (subdivision n a b c depth) i = Some t ->
    exists k before after,
      subdivision n a b c depth
      = before
        ++ subdivision (S k) (tri_a t) (tri_b t) (tri_c t) (tri_depth t)
        ++ after
      /\ length before = i
      /\ depth <= tri_depth t
         /\ tri_depth t + Z.of_nat (S k) = depth + Z.of_nat n.
Proof.
  induction n as [|n IH]; intros a b c depth i t H.
  - destruct i; discriminate.
  - destruct i as [|i].
    + injection H as <-. exists n, [], []. cbn [tri_a tri_b tri_c tri_depth].
      rewrite app_nil_r. repeat split. lia.
    + cbn [subdivision nth_error] in H.
      apply nth_error_app_cases in H as [H | (j & -> & H)];
        [|apply nth_error_app_cases in H as [H | (j' & -> & H)]];
        apply IH in H as (k & bf & af & E & L & D);
        remember (subdivision (S k) (tri_a t) (tri_b t) (tri_c t) (tri_depth t))
          as blk eqn:B.
      * exists k, (mkTri a b c depth :: bf), (af ++ subdivision n b (midpoint a b) (midpoint b c) (depth + 1) ++ subdivision n c (midpoint a c) (midpoint b c) (depth + 1)).
        split; [|split; [cbn [length]; lia | lia]].
        rewrite <- B. cbn [subdivision]. rewrite E at 1.
        cbn [app]. f_equal. repeat rewrite <- app_assoc. reflexivity.
      * exists k, (mkTri a b c depth :: subdivision n a (midpoint a b) (midpoint a c) (depth + 1) ++ bf), (af ++ subdivision n c (midpoint a c) (midpoint b c) (depth + 1)).
        split; [|split; [cbn [length]; rewrite length_app; lia | lia]].
        rewrite <- B. cbn [subdivision]. rewrite E at 1.
        cbn [app]. f_equal. repeat rewrite <- app_assoc. reflexivity.
      * exists k, (mkTri a b c depth :: subdivision n a (midpoint a b) (midpoint a c) (depth + 1) ++ subdivision n b (midpoint a b) (midpoint b c) (depth + 1) ++ bf), af.
        split; [|split; [cbn [length]; rewrite !length_app; lia | lia]].
        rewrite <- B. cbn [subdivision]. rewrite E at 1.
        cbn [app]. f_equal. repeat rewrite <- app_assoc. reflexivity.
Qed.

(** ** The reference bound *)

(** With the bound 8 of main.cpp the quotient is exact: the green channel at
    depth d is d / 8. *)
Lemma green_reference_exact (d : Z) :
  0 <= d <= MAX_SIERPINSKI_DEPTH ->
  scaled_value 3 (green MAX_SIERPINSKI_DEPTH d) = Some d.
Proof.
  unfold MAX_SIERPINSKI_DEPTH. intros H.
  assert (C : d = 0 \/ d = 1 \/ d = 2 \/ d = 3 \/ d = 4 \/ d = 5 \/ d = 6
              \/ d = 7 \/ d = 8) by lia.
  repeat (destruct C as [-> | C]; [reflexivity|]). subst d. reflexivity.
Qed.

(** The stream of the reference bound, measured without unfolding it. *)
Lemma reference_stream_length :
  Z.of_nat (length (flat_map (face MAX_SIERPINSKI_DEPTH)
                      (subdivision 9 corner_a corner_b corner_c 0))) = 177138.
Proof.
  pose proof (subdivision_faces_length MAX_SIERPINSKI_DEPTH 9
                corner_a corner_b corner_c 0) as H.
  change (3 ^ Z.of_nat 9) with 19683 in H. lia.
Qed.

(** ** Claims *)

(** C1: for every bound D >= 0 and all corner points, a stream returned by
    [addSierpinskiPts] started at depth 0 on the empty vector holds exactly
    6 * 3 * (3^(D+1) - 1) / 2 floats, and it is the concatenation of
    3 * (3^(D+1) - 1) / 2 six-float vertex records; for every D an [int] can
    bound without the depth counter overflowing (D < INT_MAX) the stream is
    returned, with fuel D + 2. *)
Theorem C1_vertex_count (D : Z) (a b c : point_t) :
  0 <= D ->
  (forall fuel s,
      addSierpinskiPts D fuel a b c 0 [] = Some s ->
      Z.of_nat (length s) = 6 * 3 * (3 ^ (D + 1) - 1) / 2
      /\ exists vs : list (point_t * Z),
           s = flat_map (fun v => vertex D (fst v) (snd v)) vs
           /\ Z.of_nat (length vs) = 3 * (3 ^ (D + 1) - 1) / 2)
  /\ (D < Int.INT_MAX ->
      exists s, addSierpinskiPts D (S (levels D 0)) a b c 0 [] = Some s).
Proof.
  intros HD. split.
  - intros fuel s H.
    apply addSierpinskiPts_returns in H as [_ ->]; [|apply zero_in_range].
    cbn [app].
    pose proof (subdivision_faces_length D (levels D 0) a b c 0) as HF.
    pose proof (subdivision_length (levels D 0) a b c 0) as HT.
    rewrite levels_from_zero in HF, HT by assumption.
    split.
    + revert HF. generalize (3 ^ (D + 1)). intros p HF.
      apply Z.div_unique with (r := 0); lia.
    + exists (flat_map corners (subdivision (levels D 0) a b c 0)). split.
      * apply faces_corners.
      * rewrite corners_length, Nat2Z.inj_mul.
        revert HT. generalize (3 ^ (D + 1)). intros p HT.
        apply Z.div_unique with (r := 0); lia.
  - intros HM. rewrite addSierpinskiPts_spec by (unfold Int.INT_MIN; lia).
    rewrite (proj2 (Nat.ltb_lt _ _)) by lia. eexists. reflexivity.
Qed.

Lemma C1_vertex_count_witness :
  0 <= 1
  /\ exists s,
       addSierpinskiPts 1 3 corner_a corner_b corner_c 0 [] = Some s
       /\ Z.of_nat (length s) = 72.
Proof.
  split; [lia|].
  eexists. split; [vm_compute; reflexivity|].
  exact (proj1 (proj1 (C1_vertex_count 1 corner_a corner_b corner_c
                         (Zle_0_pos 1)) 3%nat _ eq_refl)).
Defined.

(** C2: a call at a depth within the bound appends the records of a, b and c
    in that order, each at the current depth, and after them the streams of
    the three recursive calls, in the order (a, ab, ac), (b, ab, bc),
    (c, ac, bc), each made at depth + 1; a call beyond the bound appends
    nothing, so a triangle at depth = bound is emitted without children. *)
Theorem C2_emission_order (M : Z) (fuel : nat) (a b c : point_t) (depth : Z)
  (points : list float) :
  Int.INT_MIN <= depth -> M < Int.INT_MAX -> (levels M depth < fuel)%nat ->
  (depth <= M ->
   exists s1 s2 s3,
     addSierpinskiPts M fuel a (midpoint a b) (midpoint a c) (depth + 1) []
     = Some s1
     /\ addSierpinskiPts M fuel b (midpoint a b) (midpoint b c) (depth + 1) []
        = Some s2
     /\ addSierpinskiPts M fuel c (midpoint a c) (midpoint b c) (depth + 1) []
        = Some s3
     /\ addSierpinskiPts M fuel a b c depth points
        = Some (points ++ vertex M a depth ++ vertex M b depth
                  ++ vertex M c depth ++ s1 ++ s2 ++ s3))
  /\ (depth = M ->
      addSierpinskiPts M fuel a b c depth points
      = Some (points ++ vertex M a depth ++ vertex M b depth
                ++ vertex M c depth))
  /\ (M < depth -> addSierpinskiPts M fuel a b c depth points = Some points).
Proof.
  intros Hd HM Hf.
  assert (Hf' : (levels M (depth + 1) < fuel)%nat) by (unfold levels in *; lia).
  apply Nat.ltb_lt in Hf, Hf'.
  repeat split.
  - intros G.
    assert (L : levels M depth = S (levels M (depth + 1)))
      by (unfold levels; lia).
    do 3 eexists.
    rewrite !addSierpinskiPts_spec by lia. rewrite Hf, Hf'.
    repeat split. rewrite L. cbn [subdivision flat_map app].
    rewrite !flat_map_app. unfold face at 1. cbn [tri_a tri_b tri_c tri_depth].
    repeat rewrite <- app_assoc. reflexivity.
  - intros ->. rewrite addSierpinskiPts_spec, Hf by lia.
    assert (L : levels M M = 1%nat) by (unfold levels; lia).
    rewrite L. cbn [subdivision flat_map app]. unfold face.
    cbn [tri_a tri_b tri_c tri_depth].
    rewrite !app_nil_r. reflexivity.
  - intros G. rewrite addSierpinskiPts_spec, Hf by lia.
    assert (L : levels M depth = 0%nat) by (unfold levels; lia).
    rewrite L. cbn [subdivision flat_map]. now rewrite app_nil_r.
Qed.

Lemma C2_emission_order_witness :
  exists s1 s2 s3,
    addSierpinskiPts 1 3 corner_a (midpoint corner_a corner_b)
      (midpoint corner_a corner_c) (0 + 1) [] = Some s1
    /\ addSierpinskiPts 1 3 corner_b (midpoint corner_a corner_b)
         (midpoint corner_b corner_c) (0 + 1) [] = Some s2
    /\ addSierpinskiPts 1 3 corner_c (midpoint corner_a corner_c)
         (midpoint corner_b corner_c) (0 + 1) [] = Some s3
    /\ addSierpinskiPts 1 3 corner_a corner_b corner_c 0 []
       = Some ([] ++ vertex 1 corner_a 0 ++ vertex 1 corner_b 0
                 ++ vertex 1 corner_c 0 ++ s1 ++ s2 ++ s3).
Proof.
  apply (C2_emission_order 1 3 corner_a corner_b corner_c 0 []).
  - unfold Int.INT_MIN. lia.
  - reflexivity.
  - unfold levels. cbn. lia.
  - lia.
Defined.

(** C3: [addPosAndColor] appends six floats, the x, y, z of the point as they
    are, then red 0.25, green [depth * 1.0 / MAX_DEPTH] and blue 0.75; the
    stream of a run is made of these records only, one for each corner of
    each emitted triangle, with the depth of the call that emitted it.  With
    the bound 8 the green value at depth d is exactly d / 8. *)
Theorem C3_vertex_record (M : Z) (fuel : nat) (a b c p : point_t) (depth : Z)
  (points : list float) :
  addPosAndColor M p depth points
  = points ++ [x p; y p; z p; F32.quarter; green M depth; F32.three_quarters]
  /\ (M < Int.INT_MAX -> (levels M 0 < fuel)%nat ->
      addSierpinskiPts M fuel a b c 0 points
      = Some (points
              ++ flat_map
                   (fun v => [x (fst v); y (fst v); z (fst v);
                              F32.quarter; green M (snd v); F32.three_quarters])
                   (flat_map corners (emitted_triangles M a b c)))
      /\ Forall (fun v => 0 <= snd v <= M)
           (flat_map corners (emitted_triangles M a b c)))
  /\ scaled_value 2 F32.quarter = Some 1
  /\ scaled_value 2 F32.three_quarters = Some 3
  /\ (forall d, 0 <= d <= MAX_SIERPINSKI_DEPTH ->
        scaled_value 3 (green MAX_SIERPINSKI_DEPTH d) = Some d).
Proof.
  split; [apply addPosAndColor_app|].
  split; [|split; [reflexivity|split; [reflexivity|apply green_reference_exact]]].
  intros HM Hf. split.
  - rewrite addSierpinskiPts_spec by (unfold Int.INT_MIN; lia).
    rewrite (proj2 (Nat.ltb_lt _ _)) by assumption.
    rewrite faces_corners. reflexivity.
  - apply subdivision_corners_depth.
Qed.

Lemma C3_vertex_record_witness :
  exists vs,
    addSierpinskiPts 1 3 corner_a corner_b corner_c 0 []
    = Some ([] ++ flat_map
                    (fun v => [x (fst v); y (fst v); z (fst v);
                               F32.quarter; green 1 (snd v); F32.three_quarters])
                    vs)
    /\ Forall (fun v => 0 <= snd v <= 1) vs.
Proof.
  exists (flat_map corners (emitted_triangles 1 corner_a corner_b corner_c)).
  apply (proj1 (proj2 (C3_vertex_record 1 3 corner_a corner_b corner_c
                         corner_a 0 []))).
  - reflexivity.
  - unfold levels. cbn. lia.
Defined.

(** C4 (as the code has it): with the bound 0 the stream is three vertex
    records, the positions of a, b, c in input order, each with red 0.25 and
    blue 0.75; the green channel is the quotient 0.0 / 0.0 of the colour
    formula, which is NaN. *)
Theorem C4_zero_bound (a b c : point_t) (fuel : nat) :
  addSierpinskiPts 0 (S (S fuel)) a b c 0 []
  = Some [x a; y a; z a; F32.quarter; S754_nan; F32.three_quarters;
          x b; y b; z b; F32.quarter; S754_nan; F32.three_quarters;
          x c; y c; z c; F32.quarter; S754_nan; F32.three_quarters]
  /\ green 0 0 = S754_nan
  /\ F64.div (F64.mul (F64.of_int 0) F64.one) (F64.of_int 0) = S754_nan.
Proof.
  split; [|split; reflexivity].
  rewrite addSierpinskiPts_spec by (unfold Int.INT_MIN, Int.INT_MAX; lia).
  reflexivity.
Qed.

(** C4, as stated, fails: with the bound 0 the run on the corner points of
    main.cpp does not return the records with green channel 0. *)
Lemma C4_counterexample :
  ~ exists fuel,
      addSierpinskiPts 0 fuel corner_a corner_b corner_c 0 []
      = Some [x corner_a; y corner_a; z corner_a;
              F32.quarter; F32.zero; F32.three_quarters;
              x corner_b; y corner_b; z corner_b;
              F32.quarter; F32.zero; F32.three_quarters;
              x corner_c; y corner_c; z corner_c;
              F32.quarter; F32.zero; F32.three_quarters].
Proof.
  intros [fuel H].
  apply addSierpinskiPts_returns in H as [_ H]; [|apply zero_in_range].
  vm_compute in H. discriminate.
Qed.

(** C5: for any corner points and any negative bound the guard fails at
    depth 0: the call returns at once, within its first activation, and the
    vector is left as it was, so the stream built from the empty vector is
    empty. *)
Theorem C5_negative_bound (M : Z) (a b c : point_t) (fuel : nat)
  (points : list float) :
  M < 0 ->
  addSierpinskiPts M (S fuel) a b c 0 points = Some points
  /\ addSierpinskiPts M (S fuel) a b c 0 [] = Some [].
Proof.
  intros HM. cbn [addSierpinskiPts].
  replace (0 <=? M) with false by (symmetry; apply Z.leb_gt; exact HM).
  split; reflexivity.
Qed.

Lemma C5_negative_bound_witness :
  -1 < 0
  /\ addSierpinskiPts (-1) 1 corner_a corner_b corner_c 0 [] = Some [].
Proof.
  split; [reflexivity|].
  exact (proj2 (C5_negative_bound (-1) corner_a corner_b corner_c 0 []
                  eq_refl)).
Defined.

(** C6: for all points p and q with binary32 coordinates, [midpoint p q] is
    componentwise the arithmetic mean (p.x + q.x) / 2 of IEEE-754 [float]
    arithmetic: the division by the [double] literal 2.0 and the conversion
    back to [float] round exactly as the [float] division does, so nothing
    is rounded beyond the sum and the quotient. *)
Theorem C6_midpoint_mean (p q : point_t) :
  valid_point p -> valid_point q ->
  midpoint p q
  = {| x := arithmetic_mean (x p) (x q);
       y := arithmetic_mean (y p) (y q);
       z := arithmetic_mean (z p) (z q) |}
  /\ valid_point (midpoint p q).
Proof.
  intros (Px & Py & Pz) (Qx & Qy & Qz).
  assert (E : midpoint p q
              = {| x := arithmetic_mean (x p) (x q);
                   y := arithmetic_mean (y p) (y q);
                   z := arithmetic_mean (z p) (z q) |}).
  { unfold midpoint, arithmetic_mean. now rewrite !half_sum_mean. }
  split; [exact E|].
  unfold valid_point, midpoint. cbn [x y z].
  repeat split; apply half_sum_valid.
Qed.

Lemma C6_midpoint_mean_witness :
  midpoint corner_a corner_b
  = {| x := arithmetic_mean (x corner_a) (x corner_b);
       y := arithmetic_mean (y corner_a) (y corner_b);
       z := arithmetic_mean (z corner_a) (z corner_b) |}.
Proof.
  apply (C6_midpoint_mean corner_a corner_b); repeat split.
Defined.

(** C7 (as the code has it): for all corner points and every bound below
    INT_MAX the call at depth 0 terminates.  Every recursive call is made at
    depth + 1 without overflow, the run returns once the guard fails, and the
    fuel it needs is one activation more than the number of levels: for a
    bound M >= 0 exactly M + 1 recursive calls are nested inside the initial
    one, and with fewer the run is cut short. *)
Theorem C7_terminates_below_INT_MAX (M : Z) (a b c : point_t)
  (points : list float) :
  M < Int.INT_MAX ->
  (exists s, addSierpinskiPts M (S (levels M 0)) a b c 0 points = Some s)
  /\ (forall fuel, (fuel <= levels M 0)%nat ->
        addSierpinskiPts M fuel a b c 0 points = None)
  /\ (0 <= M -> Z.of_nat (levels M 0) = M + 1)
  /\ (forall depth, Int.INT_MIN <= depth <= M -> Int.add depth 1 = depth + 1).
Proof.
  intros HM. repeat split.
  - rewrite addSierpinskiPts_spec by (unfold Int.INT_MIN; lia).
    rewrite (proj2 (Nat.ltb_lt _ _)) by lia. eexists. reflexivity.
  - intros fuel Hf. rewrite addSierpinskiPts_spec by (unfold Int.INT_MIN; lia).
    rewrite (proj2 (Nat.ltb_ge _ _)) by lia. reflexivity.
  - apply levels_from_zero.
  - intros depth Hd. apply add_one_exact; lia.
Qed.

Lemma C7_terminates_below_INT_MAX_witness :
  8 < Int.INT_MAX
  /\ exists s, initSierpinski 10 [] = Some s.
Proof.
  split; [reflexivity|].
  exact (proj1 (C7_terminates_below_INT_MAX 8 corner_a corner_b corner_c []
                  eq_refl)).
Defined.

(** C7, as stated, fails: with the bound at INT_MAX the guard
    [depth <= MAX_DEPTH] holds for every [int], and no fuel lets the call
    return. *)
Lemma C7_counterexample :
  ~ exists fuel s,
      addSierpinskiPts Int.INT_MAX fuel corner_a corner_b corner_c 0 []
      = Some s.
Proof.
  intros (fuel & s & H).
  rewrite addSierpinskiPts_no_return in H;
    [discriminate | apply Z.le_refl | apply zero_in_range].
Qed.

(** C8 (as the code has it): the triangles a call emits form one block of
    the stream; the block starts with the call's own triangle, and every
    other triangle of the block, which are its descendants, is strictly
    deeper.  So a triangle precedes all the triangles subdivided from it, and
    the root precedes all others. *)
Theorem C8_triangle_before_its_subtree (M : Z) (fuel : nat) (a b c : point_t)
  (i : nat) (t : triangle) :
  M < Int.INT_MAX -> (levels M 0 < fuel)%nat ->
  nth_error (emitted_triangles M a b c) i = Some t ->
  addSierpinskiPts M fuel a b c 0 []
  = Some (flat_map (face M) (emitted_triangles M a b c))
  /\ exists before rest after,
       emitted_triangles M a b c = before ++ (t :: rest) ++ after
       /\ length before = i
       /\ t :: rest
          = subdivision (levels M (tri_depth t))
              (tri_a t) (tri_b t) (tri_c t) (tri_depth t)
       /\ Forall (fun t' => tri_depth t < tri_depth t') rest.
Proof.
  intros HM Hf H. split.
  - rewrite addSierpinskiPts_spec by (unfold Int.INT_MIN; lia).
    rewrite (proj2 (Nat.ltb_lt _ _)) by assumption. reflexivity.
  - unfold emitted_triangles in *.
    apply subdivision_block in H as (k & bf & af & E & L & D0 & D).
    assert (K : levels M (tri_depth t) = S k) by (unfold levels in *; lia).
    rewrite K. rewrite E.
    destruct t as [ta tb tc td]. cbn [tri_a tri_b tri_c tri_depth] in *.
    cbn [subdivision].
    eexists bf, _, af. repeat split; [exact L|].
    repeat (apply Forall_app; split);
      (eapply Forall_impl; [|apply subdivision_depth_bounds]);
      cbn beta; intros t Ht; lia.
Qed.

Lemma C8_triangle_before_its_subtree_witness :
  exists t before rest after,
    nth_error (emitted_triangles 2 corner_a corner_b corner_c) 1 = Some t
    /\ emitted_triangles 2 corner_a corner_b corner_c
       = before ++ (t :: rest) ++ after
    /\ length before = 1%nat
    /\ Forall (fun t' => tri_depth t < tri_depth t') rest.
Proof.
  eexists.
  destruct (proj2 (C8_triangle_before_its_subtree 2 4 corner_a corner_b
                     corner_c 1 _ eq_refl (le_n 4) eq_refl))
    as (before & rest & after & E & L & _ & F).
  exists before, rest, after. repeat split; assumption.
Defined.

(** C8, as stated, fails: with the bound 2 the stream of main.cpp's corner
    points holds a triangle of depth 2 (the third one) before a triangle of
    depth 1 (the sixth one). *)
Lemma C8_counterexample :
  addSierpinskiPts 2 4 corner_a corner_b corner_c 0 []
  = Some (flat_map (face 2) (emitted_triangles 2 corner_a corner_b corner_c))
  /\ map tri_depth (emitted_triangles 2 corner_a corner_b corner_c)
     = [0; 1; 2; 2; 2; 1; 2; 2; 2; 1; 2; 2; 2]
  /\ ~ shallower_first (emitted_triangles 2 corner_a corner_b corner_c).
Proof.
  split; [vm_compute; reflexivity|]. split; [reflexivity|].
  intros H.
  assert (L : (5 < 2)%nat).
  { eapply (H 5%nat 2%nat); [reflexivity | reflexivity | cbn; lia]. }
  lia.
Qed.

(** C9 (as the code has it): with the bound 8 of main.cpp, [initSierpinski]
    fills the empty vector with 29,523 vertices, that is 177,138 floats
    (9,841 triangles). *)
Theorem C9_reference_size :
  exists s,
    (forall fuel, initSierpinski (10 + fuel) [] = Some s)
    /\ Z.of_nat (length s) = 177138
    /\ Z.of_nat (length s) = 6 * 29523
    /\ Z.of_nat (length s) = 18 * 9841.
Proof.
  assert (E : levels MAX_SIERPINSKI_DEPTH 0 = 9%nat) by reflexivity.
  exists (flat_map (face MAX_SIERPINSKI_DEPTH)
            (subdivision 9 corner_a corner_b corner_c 0)).
  split.
  - intros fuel. unfold initSierpinski.
    rewrite addSierpinskiPts_spec
      by (unfold Int.INT_MIN, Int.INT_MAX, MAX_SIERPINSKI_DEPTH; lia).
    rewrite E. rewrite (proj2 (Nat.ltb_lt _ _)) by lia. reflexivity.
  - rewrite reference_stream_length. repeat split.
Qed.

(** C9, as stated, fails: no run of [initSierpinski] on the empty vector
    returns 59,022 floats. *)
Lemma C9_counterexample :
  ~ exists fuel s,
      initSierpinski fuel [] = Some s /\ Z.of_nat (length s) = 59022.
Proof.
  intros (fuel & s & H & L). unfold initSierpinski in H.
  apply addSierpinskiPts_returns in H as [_ ->]; [|apply zero_in_range].
  assert (E : levels MAX_SIERPINSKI_DEPTH 0 = 9%nat) by reflexivity.
  rewrite app_nil_l, E, reference_stream_length in L. discriminate.
Qed.

(** C10: [addPosAndColor] leaves the prior contents of the vector in place
    and appends exactly 6 floats; every call of [addSierpinskiPts] that
    returns leaves the prior contents as a prefix and has appended a multiple
    of 6 floats, so a stream built from the empty vector has a length that is
    a multiple of 6.  Below INT_MAX the call does return. *)
Theorem C10_append_only (M : Z) (fuel : nat) (a b c p : point_t) (depth : Z)
  (points : list float) :
  (exists record,
      addPosAndColor M p depth points = points ++ record
      /\ length record = 6%nat)
  /\ (forall s,
        addSierpinskiPts M fuel a b c depth points = Some s ->
        exists suffix k,
          s = points ++ suffix /\ length suffix = (6 * k)%nat)
  /\ (forall s,
        addSierpinskiPts M fuel a b c depth [] = Some s ->
        exists k, length s = (6 * k)%nat)
  /\ (M < Int.INT_MAX -> Int.INT_MIN <= depth ->
      exists s,
        addSierpinskiPts M (S (levels M depth)) a b c depth points = Some s).
Proof.
  repeat split.
  - exists (vertex M p depth). split; [apply addPosAndColor_app | reflexivity].
  - intros s H. apply addSierpinskiPts_appends in H as [ts ->].
    exists (flat_map (face M) ts), (3 * length ts)%nat. split; [reflexivity|].
    rewrite faces_length. lia.
  - intros s H. apply addSierpinskiPts_appends in H as [ts ->].
    exists (3 * length ts)%nat. cbn [app]. rewrite faces_length. lia.
  - intros HM Hd. rewrite addSierpinskiPts_spec by assumption.
    rewrite (proj2 (Nat.ltb_lt _ _)) by lia. eexists. reflexivity.
Qed.

Lemma C10_append_only_witness :
  exists s suffix k,
    addSierpinskiPts 1 3 corner_a corner_b corner_c 0 [F32.zero] = Some s
    /\ s = [F32.zero] ++ suffix /\ length suffix = (6 * k)%nat.
Proof.
  destruct (proj1 (proj2 (C10_append_only 1 3 corner_a corner_b corner_c
                            corner_a 0 [F32.zero])) _ eq_refl)
    as (suffix & k & E & L).
  eexists. exists suffix, k. split; [reflexivity|]. split; assumption.
Defined.
